(** * fibext: the Fibonacci generator of [src/src/lib.rs]

    Element types are the unsigned primitives [u8 .. u128] and [BigUint];
    their values are modelled as [Z].  The two overflow policies of the
    crate (feature [checked-overflow] on or off, with [std]) are two
    branches of [Fibonacci_next], selected by a [Policy]. *)

From Stdlib Require Import ZArith List Lia Bool.
Import ListNotations.
Open Scope Z_scope.

(** ** Element types and the [UnsignedInteger] trait *)

Inductive ElemTy := U8 | U16 | U32 | U64 | U128 | BigUint.

(** Bit width of the fixed-width types; [BigUint] has none. *)
Definition width (t : ElemTy) : option Z :=
  match t with
  | U8 => Some 8 | U16 => Some 16 | U32 => Some 32
  | U64 => Some 64 | U128 => Some 128 | BigUint => None
  end.

Inductive ArithmeticError := Overflow.

Inductive Result (A E : Type) := Ok (a : A) | Err (e : E).
Arguments Ok {A E} a.
Arguments Err {A E} e.

Definition zero (t : ElemTy) : Z := 0.
Definition one (t : ElemTy) : Z := 1.

(** Rust's [overflowing_add] on a [w]-bit unsigned integer: the
    wrapped sum and the carry out of bit [w - 1]. *)
Definition overflowing_add (w a b : Z) : Z * bool :=
  (Z.land (a + b) (Z.ones w), Z.testbit (a + b) w).

(** Rust's inherent [checked_add]. *)
Definition checked_add (w a b : Z) : option Z :=
  let (r, o) := overflowing_add w a b in
  if o then None else Some r.

(** Rust's inherent [wrapping_add]. *)
Definition wrapping_add (w a b : Z) : Z := fst (overflowing_add w a b).

(** [safe_add] (feature [checked-overflow]): the macro impl for the
    primitives, [Ok (self + rhs)] for [BigUint]. *)
Definition safe_add (t : ElemTy) (self rhs : Z) : Result Z ArithmeticError :=
  match width t with
  | Some w =>
      match checked_add w self rhs with
      | Some v => Ok v
      | None => Err Overflow
      end
  | None => Ok (self + rhs)
  end.

(** [unchecked_add] (no [checked-overflow], [std]): [wrapping_add] for
    the primitives, [self + rhs] for [BigUint]. *)
Definition unchecked_add (t : ElemTy) (self rhs : Z) : Z :=
  match width t with
  | Some w => wrapping_add w self rhs
  | None => self + rhs
  end.

(** ** The generator *)

Record Fibonacci := mkFib { current : Z; next : Z }.

Definition new (t : ElemTy) : Fibonacci :=
  {| current := zero t; next := one t |}.

Definition default (t : ElemTy) : Fibonacci := new t.

Inductive Policy := Checked | Wrapping.

(** [Iterator::next], checked-overflow branch (lines 140-152). *)
Definition next_checked (t : ElemTy) (self : Fibonacci) : option Z * Fibonacci :=
  match safe_add t (current self) (next self) with
  | Err Overflow => (None, self)
  | Ok value =>
      let nxt := value in
      let cur := current self in
      let self1 := {| current := next self; next := next self |} in
      let self2 := {| current := current self1; next := nxt |} in
      (Some cur, self2)
  end.

(** [Iterator::next], wrapping branch with [std] (lines 155-162): the
    field [current] is overwritten before [next] is recomputed from it. *)
Definition next_wrapping (t : ElemTy) (self : Fibonacci) : option Z * Fibonacci :=
  let cur := current self in
  let self1 := {| current := next self; next := next self |} in
  let self2 := {| current := current self1;
                  next := unchecked_add t (current self1) (next self1) |} in
  (Some cur, self2).

Definition Fibonacci_next (p : Policy) (t : ElemTy) (self : Fibonacci)
  : option Z * Fibonacci :=
  match p with
  | Checked => next_checked t self
  | Wrapping => next_wrapping t self
  end.

(** [k] successive pulls on the same generator. *)
Fixpoint pulls (p : Policy) (t : ElemTy) (k : nat) (s : Fibonacci)
  : list (option Z) * Fibonacci :=
  match k with
  | O => ([], s)
  | S k' =>
      let (o, s1) := Fibonacci_next p t s in
      let (os, s2) := pulls p t k' s1 in
      (o :: os, s2)
  end.

(** The state after [n] pulls. *)
Fixpoint advance (p : Policy) (t : ElemTy) (n : nat) (s : Fibonacci) : Fibonacci :=
  match n with
  | O => s
  | S n' => advance p t n' (snd (Fibonacci_next p t s))
  end.

(** The result of the [n]-th pull (counting from 0) on a fresh generator. *)
Definition nth_pull (p : Policy) (t : ElemTy) (n : nat) : option Z :=
  fst (Fibonacci_next p t (advance p t n (new t))).

(** ** Mathematical Fibonacci numbers *)

Fixpoint fib_pair (n : nat) : Z * Z :=
  match n with
  | O => (0, 1)
  | S n' => let (a, b) := fib_pair n' in (b, a + b)
  end.

Definition F (n : nat) : Z := fst (fib_pair n).

(** ** The buffer filler *)

(** Modelled from the spec: [fill_fibonacci_sequence] (spec 4.3, Buffer
    Filler) is not in [src/].  It constructs a fresh generator and writes
    consecutive pulled terms into the buffer in order; a pull that signals
    exhaustion before the buffer is full makes it fail ([None]). *)
Fixpoint fill_from (p : Policy) (t : ElemTy) (s : Fibonacci) (buf : list Z)
  : option (list Z) :=
  match buf with
  | [] => Some []
  | _ :: rest =>
      match Fibonacci_next p t s with
      | (Some v, s1) =>
          match fill_from p t s1 rest with
          | Some l => Some (v :: l)
          | None => None
          end
      | (None, _) => None
      end
  end.

Definition fill_fibonacci_sequence (p : Policy) (t : ElemTy) (buf : list Z)
  : option (list Z) :=
  fill_from p t (new t) buf.

(** A state whose two fields lie in the range of a [w]-bit type. *)
Definition in_range (w : Z) (s : Fibonacci) : Prop :=
  0 <= current s < 2 ^ w /\ 0 <= next s < 2 ^ w.

(** ** The crate's unit tests *)

Definition opt_eqb (a b : option Z) : bool :=
  match a, b with
  | Some x, Some y => Z.eqb x y
  | None, None => true
  | _, _ => false
  end.

Fixpoint list_opt_eqb (l1 l2 : list (option Z)) : bool :=
  match l1, l2 with
  | [], [] => true
  | a :: l1', b :: l2' => opt_eqb a b && list_opt_eqb l1' l2'
  | _, _ => false
  end.

(** [tests::test_fibonacci::<T>]: the seed, then the first six pulls. *)
Definition test_fibonacci (p : Policy) (t : ElemTy) : bool :=
  let fib := new t in
  Z.eqb (current fib) (zero t) && Z.eqb (next fib) (one t) &&
  list_opt_eqb (fst (pulls p t 6 fib))
    [Some (zero t); Some (one t); Some (one t); Some (one t + one t);
     Some (one t + one t + one t);
     Some (one t + one t + one t + one t + one t)].

(** [tests::test_fibonacci_overflow]: 255 pulls on a [u8] generator, then
    one more pull must return [None]. *)
Definition test_fibonacci_overflow (p : Policy) : bool :=
  let fib := advance p U8 255 (new U8) in
  opt_eqb (fst (Fibonacci_next p U8 fib)) None.

Example ex_checked_u8 :
  fst (pulls Checked U8 14 (new U8)) =
  [Some 0; Some 1; Some 1; Some 2; Some 3; Some 5; Some 8; Some 13; Some 21;
   Some 34; Some 55; Some 89; None; None].
Proof. reflexivity. Qed.

Example ex_wrapping_u8 :
  fst (pulls Wrapping U8 10 (new U8)) =
  [Some 0; Some 1; Some 2; Some 4; Some 8; Some 16; Some 32; Some 64; Some 128; Some 0].
Proof. reflexivity. Qed.

(** ** Arithmetic of the fixed-width additions *)

Lemma width_pos t w : width t = Some w -> 0 < w.
Proof. destruct t; simpl; intros H; inversion H; lia. Qed.

Lemma overflowing_add_spec w a b :
  0 <= w -> 0 <= a < 2 ^ w -> 0 <= b < 2 ^ w ->
  overflowing_add w a b =
  (if a + b <? 2 ^ w then (a + b, false) else (a + b - 2 ^ w, true)).
Proof.
  intros Hw Ha Hb. unfold overflowing_add.
  rewrite Z.land_ones by lia.
  destruct (Z.ltb_spec (a + b) (2 ^ w)) as [Hlt | Hge].
  - rewrite Z.mod_small by lia. f_equal.
    apply Z.testbit_false; [lia |]. rewrite Z.div_small by lia. reflexivity.
  - assert (Hq : (a + b) / 2 ^ w = 1).
    { symmetry. apply Z.div_unique with (r := a + b - 2 ^ w); lia. }
    assert (Hm : (a + b) mod 2 ^ w = a + b - 2 ^ w).
    { symmetry. apply Z.mod_unique with (q := 1); lia. }
    rewrite Hm. f_equal.
    apply Z.testbit_true; [lia |]. rewrite Hq. reflexivity.
Qed.

Lemma checked_add_spec w a b :
  0 <= w -> 0 <= a < 2 ^ w -> 0 <= b < 2 ^ w ->
  checked_add w a b = if a + b <? 2 ^ w then Some (a + b) else None.
Proof.
  intros Hw Ha Hb. unfold checked_add.
  rewrite overflowing_add_spec by assumption.
  destruct (a + b <? 2 ^ w); reflexivity.
Qed.

(** ** Exhaustion is a fixed point of the checked branch *)

Lemma next_checked_none t s o s' :
  next_checked t s = (o, s') -> o = None -> s' = s.
Proof.
  unfold next_checked. destruct (safe_add t _ _) as [v | []];
    intros H; inversion H; congruence.
Qed.

Lemma pulls_stuck t s :
  fst (next_checked t s) = None ->
  forall k, pulls Checked t k s = (repeat None k, s).
Proof.
  intros Hn k. induction k as [| k IH]; [reflexivity |].
  simpl. destruct (next_checked t s) as [o s1] eqn:E.
  simpl in Hn. subst o.
  rewrite (next_checked_none t s None s1 E eq_refl) in *.
  rewrite IH. reflexivity.
Qed.

Lemma advance_stuck t s :
  fst (next_checked t s) = None -> forall k, advance Checked t k s = s.
Proof.
  intros Hn k. induction k as [| k IH]; [reflexivity |].
  simpl. destruct (next_checked t s) as [o s1] eqn:E.
  simpl in Hn. subst o.
  rewrite (next_checked_none t s None s1 E eq_refl). exact IH.
Qed.

Lemma advance_add p t m n s :
  advance p t (m + n) s = advance p t n (advance p t m s).
Proof.
  revert s. induction m as [| m IH]; intros s; [reflexivity |].
  simpl. apply IH.
Qed.

(** ** The checked branch tracks the Fibonacci recurrence *)


Lemma next_checked_some t w s v s' :
  width t = Some w -> in_range w s ->
  next_checked t s = (Some v, s') ->
  v = current s /\ s' = mkFib (next s) (current s + next s) /\ in_range w s'.
Proof.
  intros Ht [Hc Hn]. pose proof (width_pos t w Ht) as Hw.
  unfold next_checked, safe_add. rewrite Ht.
  rewrite checked_add_spec by (lia || assumption).
  destruct (Z.ltb_spec (current s + next s) (2 ^ w)) as [Hlt | Hge];
    intros H; inversion H; subst; clear H.
  split; [reflexivity | split; [reflexivity |]].
  unfold in_range; simpl; lia.
Qed.

(** After [n] pulls that all returned a value, the checked generator is
    in state [(F n, F (n + 1))]. *)
Lemma checked_advance_fib t w n :
  width t = Some w ->
  (forall i, (i < n)%nat -> nth_pull Checked t i <> None) ->
  advance Checked t n (new t) = mkFib (F n) (F (S n)) /\
  in_range w (advance Checked t n (new t)).
Proof.
  intros Ht. pose proof (width_pos t w Ht) as Hw.
  induction n as [| n IH]; intros Hall.
  - split; [reflexivity |]. unfold in_range, new, zero, one; simpl.
    assert (1 < 2 ^ w) by (apply Z.pow_gt_1; lia). lia.
  - destruct IH as [Hs Hr]; [intros i Hi; apply Hall; lia |].
    specialize (Hall n ltac:(lia)). unfold nth_pull in Hall.
    replace (S n) with (n + 1)%nat by lia. rewrite advance_add. simpl.
    simpl in Hall. destruct (next_checked t (advance Checked t n (new t)))
      as [[v |] s'] eqn:E; [| simpl in Hall; congruence].
    destruct (next_checked_some t w _ v s' Ht Hr E) as (_ & Hs' & Hr').
    simpl. split; [| exact Hr'].
    rewrite Hs', Hs. unfold F. simpl.
    replace (n + 1)%nat with (S n) by lia. simpl.
    destruct (fib_pair n) as [a b]. reflexivity.
Qed.

Lemma next_checked_biguint s :
  next_checked BigUint s =
  (Some (current s), mkFib (next s) (current s + next s)).
Proof. reflexivity. Qed.

(** ** Claims *)

(** C1 (code_bug): under the checked policy every element type emits
    0, 1, 1, 2, 3, 5, 8 as its first seven terms, but under the wrapping
    policy the [u8] generator emits 0, 1, 2: its third term is not the
    sum 0 + 1 of the two before it. *)
Theorem C1_wrapping_breaks_recurrence :
  (forall t, fst (pulls Checked t 7 (new t)) =
             map Some [0; 1; 1; 2; 3; 5; 8]) /\
  fst (pulls Wrapping U8 3 (new U8)) = [Some 0; Some 1; Some 2] /\
  2 <> 0 + 1.
Proof.
  split; [intros t; destruct t; reflexivity |].
  split; [reflexivity | lia].
Qed.

(** C2 (code_bug): a fresh generator is in state (0, 1), and under the
    checked policy the state after [n] successful pulls is
    [(F n, F (n+1))]; under the wrapping policy one pull on a fresh [u8]
    generator already leaves the state (1, 2) instead of (F 1, F 2) = (1, 1):
    [next] becomes twice the old [next], not the old [current + next]. *)
Theorem C2_wrapping_state_diverges :
  (forall t, new t = mkFib 0 1) /\
  (forall t w n, width t = Some w ->
     (forall i, (i < n)%nat -> nth_pull Checked t i <> None) ->
     advance Checked t n (new t) = mkFib (F n) (F (S n))) /\
  advance Wrapping U8 1 (new U8) = mkFib 1 2 /\
  mkFib (F 1) (F 2) = mkFib 1 1.
Proof.
  split; [reflexivity |].
  split; [intros t w n Ht Hall; apply (checked_advance_fib t w n Ht Hall) |].
  split; reflexivity.
Qed.

(** C3 (corrected), counterexample: the 13th pull on a fresh checked [u8]
    generator already signals exhaustion, so the first 255 pulls do not
    all succeed. *)
Lemma C3_not_255_successes :
  ~ (forall i, (i < 255)%nat -> nth_pull Checked U8 i <> None).
Proof.
  intros H. apply (H 12%nat); [lia | reflexivity].
Qed.

(** C3 (corrected), amended: on a fresh checked [u8] generator the
    [n]-th pull (counting from 0) signals exhaustion exactly when
    [n >= 12]: the first 12 pulls succeed, the 13th and every later pull
    (the 256th included) signal exhaustion. *)
Theorem C3_checked_u8_exhaustion :
  forall n, nth_pull Checked U8 n = None <-> (12 <= n)%nat.
Proof.
  intros n. split.
  - intros H. destruct (Nat.le_gt_cases 12 n) as [Hle | Hgt]; [exact Hle |].
    do 12 (destruct n as [| n]; [discriminate H |]). lia.
  - intros Hle. replace n with (12 + (n - 12))%nat by lia.
    unfold nth_pull. rewrite advance_add.
    change (advance Checked U8 12 (new U8)) with (mkFib 144 233).
    simpl Fibonacci_next.
    rewrite (advance_stuck U8 (mkFib 144 233) eq_refl). reflexivity.
Qed.

(** C5: under the checked policy, for every element type and every
    state, once a pull signals exhaustion every later pull on the same
    generator signals exhaustion too. *)
Theorem C5_exhaustion_sticky :
  forall t s, fst (Fibonacci_next Checked t s) = None ->
  forall k, fst (pulls Checked t k (snd (Fibonacci_next Checked t s))) =
            repeat None k.
Proof.
  intros t s Hn k. simpl in *.
  destruct (next_checked t s) as [o s1] eqn:E. simpl in *. subst o.
  rewrite (next_checked_none t s None s1 E eq_refl).
  rewrite (next_checked_none t s None s1 E eq_refl) in E.
  rewrite (pulls_stuck t s); [reflexivity |]. rewrite E. reflexivity.
Qed.

Lemma C5_exhaustion_sticky_witness :
  fst (Fibonacci_next Checked U8 (mkFib 144 233)) = None /\
  fst (pulls Checked U8 3 (snd (Fibonacci_next Checked U8 (mkFib 144 233)))) =
    repeat None 3.
Proof.
  split; [reflexivity |].
  apply (C5_exhaustion_sticky U8 (mkFib 144 233)); reflexivity.
Defined.

(** C6: under the checked policy, a pull that signals exhaustion leaves
    both fields of the generator unchanged. *)
Theorem C6_exhaustion_keeps_state :
  forall t s, fst (Fibonacci_next Checked t s) = None ->
  snd (Fibonacci_next Checked t s) = s.
Proof.
  intros t s Hn. simpl in *.
  destruct (next_checked t s) as [o s1] eqn:E. simpl in *. subst o.
  exact (next_checked_none t s None s1 E eq_refl).
Qed.

Lemma C6_exhaustion_keeps_state_witness :
  fst (Fibonacci_next Checked U8 (mkFib 144 233)) = None /\
  snd (Fibonacci_next Checked U8 (mkFib 144 233)) = mkFib 144 233.
Proof.
  split; [reflexivity |].
  apply (C6_exhaustion_keeps_state U8 (mkFib 144 233)); reflexivity.
Defined.

(** C7 (code_bug): under the wrapping policy every pull of a [u8]
    generator returns a value, but the pull with index 2 returns 2 while
    [F 2 mod 256 = 1]. *)
Theorem C7_wrapping_u8_not_fib_mod :
  (forall n, nth_pull Wrapping U8 n <> None) /\
  nth_pull Wrapping U8 2 = Some 2 /\
  F 2 mod 256 = 1.
Proof.
  split; [intros n; unfold nth_pull; simpl; discriminate |].
  split; reflexivity.
Qed.

(** C8: for every fixed-width type, [safe_add] of two in-range operands
    is [Ok] of their exact sum when the sum fits the type and
    [Err Overflow] otherwise; for [u8], [1 + 1] gives [Ok 2] and
    [255 + 1] gives [Err Overflow]. *)
Theorem C8_safe_add_spec :
  forall t w a b, width t = Some w ->
  0 <= a < 2 ^ w -> 0 <= b < 2 ^ w ->
  safe_add t a b = (if a + b <? 2 ^ w then Ok (a + b) else Err Overflow) /\
  safe_add U8 1 1 = Ok 2 /\ safe_add U8 255 1 = Err Overflow.
Proof.
  intros t w a b Ht Ha Hb. pose proof (width_pos t w Ht).
  split; [| split; reflexivity].
  unfold safe_add. rewrite Ht, checked_add_spec by (lia || assumption).
  destruct (a + b <? 2 ^ w); reflexivity.
Qed.

Lemma C8_safe_add_spec_witness :
  safe_add U8 200 100 = Err Overflow /\ safe_add U8 200 55 = Ok 255.
Proof.
  split.
  - destruct (C8_safe_add_spec U8 8 200 100 eq_refl ltac:(lia) ltac:(lia))
      as [H _]. exact H.
  - destruct (C8_safe_add_spec U8 8 200 55 eq_refl ltac:(lia) ltac:(lia))
      as [H _]. exact H.
Defined.

(** C9 (code_bug): for [BigUint], [safe_add] always returns the exact
    sum, [unchecked_add] returns the same sum, and neither policy ever
    signals exhaustion; yet the two generators differ at the pull with
    index 2: the checked one emits 1, the wrapping one emits 2. *)
Theorem C9_biguint_policies_differ :
  (forall a b, safe_add BigUint a b = Ok (a + b)) /\
  (forall a b, unchecked_add BigUint a b = a + b) /\
  (forall n, nth_pull Checked BigUint n <> None) /\
  (forall n, nth_pull Wrapping BigUint n <> None) /\
  nth_pull Checked BigUint 2 = Some 1 /\
  nth_pull Wrapping BigUint 2 = Some 2.
Proof.
  split; [reflexivity |]. split; [reflexivity |].
  split; [intros n; unfold nth_pull; simpl; discriminate |].
  split; [intros n; unfold nth_pull; simpl; discriminate |].
  split; reflexivity.
Qed.

(** C10 (code_bug): the buffer filler on a length-10 buffer of [u64]
    writes [0, 1, 1, 2, 3, 5, 8, 13, 21, 34] under the checked policy, but
    under the wrapping policy it inherits the generator's doubling and
    writes [0, 1, 2, 4, 8, 16, 32, 64, 128, 256]. *)
Theorem C10_fill_u64_len10 :
  forall buf : list Z, length buf = 10%nat ->
  fill_fibonacci_sequence Checked U64 buf =
    Some [0; 1; 1; 2; 3; 5; 8; 13; 21; 34] /\
  fill_fibonacci_sequence Wrapping U64 buf =
    Some [0; 1; 2; 4; 8; 16; 32; 64; 128; 256].
Proof.
  intros buf Hlen.
  do 10 (destruct buf as [| ? buf]; [discriminate Hlen |]).
  destruct buf; [split; reflexivity | discriminate Hlen].
Qed.

Lemma C10_fill_u64_len10_witness :
  fill_fibonacci_sequence Checked U64 (repeat 0 10) =
    Some [0; 1; 1; 2; 3; 5; 8; 13; 21; 34] /\
  fill_fibonacci_sequence Wrapping U64 (repeat 0 10) =
    Some [0; 1; 2; 4; 8; 16; 32; 64; 128; 256].
Proof. apply C10_fill_u64_len10. reflexivity. Defined.

(** ** Further properties of the generator *)

Lemma fib_pair_F n : fib_pair n = (F n, F (S n)).
Proof.
  unfold F. simpl. destruct (fib_pair n) as [a b]. reflexivity.
Qed.

Lemma F_SS n : F (S (S n)) = F n + F (S n).
Proof.
  unfold F. simpl. destruct (fib_pair n) as [a b]. reflexivity.
Qed.

Lemma F_nonneg_mono n : 0 <= F n <= F (S n).
Proof.
  induction n as [| n IH]; [unfold F; simpl; lia |].
  rewrite F_SS. lia.
Qed.

Lemma F_le m n : (m <= n)%nat -> F m <= F n.
Proof.
  induction 1 as [| n _ IH]; [lia |].
  pose proof (F_nonneg_mono n). lia.
Qed.

Lemma pow_pos_w w : 0 < w -> 1 < 2 ^ w.
Proof. intros Hw. apply Z.pow_gt_1; lia. Qed.

(** While [F (n+1)] fits, [n] checked pulls reach [(F n, F (n+1))]. *)
Lemma checked_advance_fits t w n :
  width t = Some w -> F (S n) < 2 ^ w ->
  advance Checked t n (new t) = mkFib (F n) (F (S n)).
Proof.
  intros Ht. pose proof (width_pos t w Ht) as Hw.
  induction n as [| n IH]; intros Hfit; [reflexivity |].
  pose proof (F_nonneg_mono n). pose proof (F_nonneg_mono (S n)).
  replace (S n) with (n + 1)%nat at 1 by lia. rewrite advance_add.
  rewrite IH by lia. simpl. unfold next_checked, safe_add. rewrite Ht. simpl.
  rewrite checked_add_spec by lia.
  rewrite <- F_SS. destruct (Z.ltb_spec (F (S (S n))) (2 ^ w)); [reflexivity | lia].
Qed.

Lemma checked_exhausted_from t w n :
  width t = Some w -> 2 ^ w <= F (S (S n)) ->
  nth_pull Checked t n = None.
Proof.
  intros Ht. pose proof (width_pos t w Ht) as Hw. unfold nth_pull.
  induction n as [| n IH]; intros Hge.
  - simpl in Hge. assert (2 ^ w <= 1) by (unfold F in Hge; simpl in Hge; lia).
    pose proof (pow_pos_w w Hw). lia.
  - destruct (Z.le_gt_cases (2 ^ w) (F (S (S n)))) as [Hge' | Hlt].
    + specialize (IH Hge'). simpl in IH.
      replace (S n) with (n + 1)%nat by lia. rewrite advance_add.
      rewrite (advance_stuck t _ IH 1). exact IH.
    + pose proof (F_nonneg_mono (S n)). pose proof (F_nonneg_mono n).
      rewrite (checked_advance_fits t w (S n) Ht Hlt). simpl.
      unfold next_checked, safe_add. rewrite Ht. simpl.
      rewrite checked_add_spec by lia.
      rewrite <- F_SS. destruct (Z.ltb_spec (F (S (S (S n)))) (2 ^ w));
        [lia | reflexivity].
Qed.

Lemma checked_nth_pull_fib :
  forall t w n, width t = Some w ->
  nth_pull Checked t n =
    if F (S (S n)) <? 2 ^ w then Some (F n) else None.
Proof.
  intros t w n Ht. pose proof (width_pos t w Ht) as Hw.
  destruct (Z.ltb_spec (F (S (S n))) (2 ^ w)) as [Hlt | Hge].
  - pose proof (F_nonneg_mono n). pose proof (F_nonneg_mono (S n)).
    unfold nth_pull. rewrite (checked_advance_fits t w n Ht) by lia.
    simpl. unfold next_checked, safe_add. rewrite Ht. simpl.
    rewrite checked_add_spec by lia. rewrite <- F_SS.
    destruct (Z.ltb_spec (F (S (S n))) (2 ^ w)); [reflexivity | lia].
  - exact (checked_exhausted_from t w n Ht Hge).
Qed.

(** For every fixed-width type, the [n]-th checked pull on a fresh
    generator returns [F n] when [F (n+2)] fits in the type, and signals
    exhaustion otherwise. *)
Theorem checked_nth_pull_closed_form :
  forall t w n, width t = Some w ->
  nth_pull Checked t n =
    if F (S (S n)) <? 2 ^ w then Some (F n) else None.
Proof. exact checked_nth_pull_fib. Qed.

Lemma checked_nth_pull_closed_form_witness :
  nth_pull Checked U16 22 = Some 17711 /\ nth_pull Checked U16 23 = None.
Proof.
  split.
  - rewrite (checked_nth_pull_closed_form U16 16 22 eq_refl). reflexivity.
  - rewrite (checked_nth_pull_closed_form U16 16 23 eq_refl). reflexivity.
Defined.

(** A fixed-width checked generator emits exactly the pulls [0 .. k-1],
    where [k] is the first index with [F (k+2)] out of range. *)
Lemma checked_exhaustion_index t w k :
  width t = Some w -> F (S k) < 2 ^ w -> 2 ^ w <= F (S (S k)) ->
  forall n, nth_pull Checked t n = None <-> (k <= n)%nat.
Proof.
  intros Ht Hfit Hover n.
  rewrite (checked_nth_pull_fib t w n Ht).
  destruct (Z.ltb_spec (F (S (S n))) (2 ^ w)) as [Hlt | Hge];
    split; intros H; try discriminate; try reflexivity.
  - exfalso. pose proof (F_le (S (S k)) (S (S n)) ltac:(lia)). lia.
  - destruct (Nat.le_gt_cases k n) as [Hle | Hgt]; [exact Hle |].
    exfalso. pose proof (F_le (S (S n)) (S k) ltac:(lia)). lia.
Qed.

(** Number of values each fixed-width checked generator emits before it
    is exhausted: 12 for [u8], 23 for [u16], 46 for [u32], 92 for [u64]
    and 185 for [u128]. *)
Theorem checked_exhaustion_per_type :
  (forall n, nth_pull Checked U8 n = None <-> (12 <= n)%nat) /\
  (forall n, nth_pull Checked U16 n = None <-> (23 <= n)%nat) /\
  (forall n, nth_pull Checked U32 n = None <-> (46 <= n)%nat) /\
  (forall n, nth_pull Checked U64 n = None <-> (92 <= n)%nat) /\
  (forall n, nth_pull Checked U128 n = None <-> (185 <= n)%nat).
Proof.
  split; [apply (checked_exhaustion_index U8 8 12) |].
  all: try split; try apply (checked_exhaustion_index U16 16 23).
  all: try split; try apply (checked_exhaustion_index U32 32 46).
  all: try split; try apply (checked_exhaustion_index U64 64 92).
  all: try apply (checked_exhaustion_index U128 128 185).
  all: first [reflexivity | vm_compute; congruence].
Qed.

(** Over [BigUint] the checked generator never stops and its [n]-th pull
    is exactly [F n]. *)
Theorem checked_biguint_all_fib :
  forall n, nth_pull Checked BigUint n = Some (F n).
Proof.
  assert (Hadv : forall n,
            advance Checked BigUint n (new BigUint) = mkFib (F n) (F (S n))).
  { induction n as [| n IH]; [reflexivity |].
    replace (S n) with (n + 1)%nat at 1 by lia. rewrite advance_add, IH.
    simpl. rewrite <- F_SS. reflexivity. }
  intros n. unfold nth_pull. rewrite Hadv. reflexivity.
Qed.

(** ** The wrapping branch doubles [next] *)

Lemma unchecked_add_fixed t w a b :
  width t = Some w -> 0 <= w -> unchecked_add t a b = (a + b) mod 2 ^ w.
Proof.
  intros Ht Hw. unfold unchecked_add, wrapping_add, overflowing_add.
  rewrite Ht. simpl. apply Z.land_ones. exact Hw.
Qed.

Lemma advance_wrapping_one t s :
  advance Wrapping t 1 s = mkFib (next s) (unchecked_add t (next s) (next s)).
Proof. reflexivity. Qed.

(** Under the wrapping policy, for a fixed-width type, after [n + 1] pulls
    the state is [(2^n mod 2^w, 2^(n+1) mod 2^w)]. *)
Lemma wrapping_advance_fixed t w n :
  width t = Some w ->
  advance Wrapping t (S n) (new t) =
    mkFib (2 ^ Z.of_nat n mod 2 ^ w) (2 ^ Z.of_nat (S n) mod 2 ^ w).
Proof.
  intros Ht. pose proof (width_pos t w Ht) as Hw.
  pose proof (pow_pos_w w Hw).
  induction n as [| n IH].
  - rewrite advance_wrapping_one. unfold new, one. cbn [next].
    rewrite (unchecked_add_fixed t w 1 1 Ht) by lia.
    rewrite (Z.mod_small 1) by lia. reflexivity.
  - replace (S (S n)) with (S n + 1)%nat by lia.
    rewrite advance_add, IH, advance_wrapping_one. cbn [next].
    rewrite (unchecked_add_fixed t w _ _ Ht) by lia. f_equal.
    rewrite <- Z.add_mod by lia. f_equal.
    replace (Z.of_nat (S n + 1)) with (Z.of_nat (S n) + 1) by lia.
    rewrite Z.pow_add_r by lia. lia.
Qed.

(** For a fixed-width type the wrapping generator emits [0] first and
    then [2^n mod 2^w] at pull [n + 1]: powers of two, not Fibonacci
    numbers. *)
Theorem wrapping_nth_pull_fixed :
  forall t w n, width t = Some w ->
  nth_pull Wrapping t 0 = Some 0 /\
  nth_pull Wrapping t (S n) = Some (2 ^ Z.of_nat n mod 2 ^ w).
Proof.
  intros t w n Ht. split; [reflexivity |].
  unfold nth_pull. rewrite (wrapping_advance_fixed t w n Ht). reflexivity.
Qed.

Lemma wrapping_nth_pull_fixed_witness :
  nth_pull Wrapping U16 0 = Some 0 /\ nth_pull Wrapping U16 11 = Some 1024.
Proof.
  destruct (wrapping_nth_pull_fixed U16 16 10 eq_refl) as [H0 H1].
  split; [exact H0 | rewrite H1; reflexivity].
Defined.

(** For a fixed-width type of [w] bits, every wrapping pull with index
    above [w] returns [0], and the generator stays in state [(0, 0)]. *)
Theorem wrapping_collapses_to_zero :
  forall t w n, width t = Some w -> (w < Z.of_nat n)%Z ->
  nth_pull Wrapping t n = Some 0 /\
  advance Wrapping t n (new t) = mkFib 0 0.
Proof.
  intros t w n Ht Hn. pose proof (width_pos t w Ht) as Hw.
  destruct n as [| n]; [lia |].
  assert (Hz : forall m, w <= m -> 2 ^ m mod 2 ^ w = 0).
  { intros m Hm. replace m with ((m - w) + w) by lia.
    rewrite Z.pow_add_r by lia. apply Z.mod_mul.
    pose proof (pow_pos_w w Hw). lia. }
  unfold nth_pull. rewrite (wrapping_advance_fixed t w n Ht).
  rewrite !Hz by lia. split; reflexivity.
Qed.

Lemma wrapping_collapses_to_zero_witness :
  nth_pull Wrapping U8 9 = Some 0 /\ advance Wrapping U8 9 (new U8) = mkFib 0 0.
Proof. apply (wrapping_collapses_to_zero U8 8 9); [reflexivity | lia]. Defined.

(** Over [BigUint] the wrapping generator emits [0] and then exactly
    [2^n] at pull [n + 1]. *)
Theorem wrapping_biguint_powers :
  forall n, nth_pull Wrapping BigUint 0 = Some 0 /\
            nth_pull Wrapping BigUint (S n) = Some (2 ^ Z.of_nat n).
Proof.
  assert (Hadv : forall n, advance Wrapping BigUint (S n) (new BigUint) =
                   mkFib (2 ^ Z.of_nat n) (2 ^ Z.of_nat (S n))).
  { induction n as [| n IH]; [reflexivity |].
    replace (S (S n)) with (S n + 1)%nat by lia.
    rewrite advance_add, IH, advance_wrapping_one. cbn [next].
    unfold unchecked_add. cbn [width]. f_equal.
    replace (Z.of_nat (S n + 1)) with (Z.of_nat (S n) + 1) by lia.
    rewrite Z.pow_add_r by lia. lia. }
  intros n. split; [reflexivity |].
  unfold nth_pull. rewrite Hadv. reflexivity.
Qed.

(** The crate's tests [test_fibonacci] (every element type) and
    [test_fibonacci_overflow] pass under the checked policy and fail
    under the wrapping policy. *)
Theorem crate_tests_outcome :
  (forall t, test_fibonacci Checked t = true) /\
  (forall t, test_fibonacci Wrapping t = false) /\
  test_fibonacci_overflow Checked = true /\
  test_fibonacci_overflow Wrapping = false.
Proof.
  split; [intros t; destruct t; reflexivity |].
  split; [intros t; destruct t; reflexivity |].
  split; vm_compute; reflexivity.
Qed.

(** C4: exactly the first 12 pulls of a fresh checked [u8] generator
    return values, 0, 1, 1, 2, 3, 5, 8, 13, 21, 34, 55, 89, and the 13th
    and every later pull return none; the generator stops in state
    (144, 233), whose look-ahead sum exceeds 255, so no pull ever emits
    144 or 233. *)
Theorem C4_checked_u8_values :
  fst (pulls Checked U8 13 (new U8)) =
    map Some [0; 1; 1; 2; 3; 5; 8; 13; 21; 34; 55; 89] ++ [None] /\
  (forall n, nth_pull Checked U8 n <> None <-> (n < 12)%nat) /\
  (forall n v, nth_pull Checked U8 n = Some v ->
     In v [0; 1; 1; 2; 3; 5; 8; 13; 21; 34; 55; 89]) /\
  (forall n, nth_pull Checked U8 n <> Some 144 /\
             nth_pull Checked U8 n <> Some 233) /\
  advance Checked U8 12 (new U8) = mkFib 144 233 /\
  144 + 233 > 255 /\
  safe_add U8 144 233 = Err Overflow.
Proof.
  pose proof (checked_exhaustion_index U8 8 12 eq_refl
                ltac:(vm_compute; reflexivity) ltac:(vm_compute; congruence))
    as Hidx.
  assert (Hvals : forall n v, nth_pull Checked U8 n = Some v ->
            In v [0; 1; 1; 2; 3; 5; 8; 13; 21; 34; 55; 89]).
  { intros n v Hn.
    destruct (Nat.le_gt_cases 12 n) as [Hle | Hlt].
    - apply Hidx in Hle. congruence.
    - do 12 (destruct n as [| n];
               [vm_compute in Hn; injection Hn as <-; simpl; tauto |]).
      lia. }
  split; [reflexivity |].
  split.
  { intros n. rewrite Hidx. lia. }
  split; [exact Hvals |].
  split.
  { intros n. split; intros Hn; apply Hvals in Hn; simpl in Hn; lia. }
  repeat split; reflexivity.
Qed.
